(** * prosemirror-typerighter: patch generation, service adapter and plugin state

    A shallow embedding of
    - [src/ts/utils/prosemirror.ts] (suggestion patches),
    - the Typerighter adapter, and
    - the plugin state reducer,
    together with the properties their specification states about them. *)

From Stdlib Require Import Ascii QArith.
From stdpp Require Import base option list sorting strings pretty.

Set Default Proof Using "Type*".

(** ** The editor runtime, as far as the code consumes it

    The document is the inline content of one text block: a sequence of
    UTF-16 code units, each carrying the marks of the text node it sits in.
    Positions are offsets into that sequence. *)

Definition chars := list ascii.

Definition Mark := string.

Definition Node := list (ascii * list Mark).

(** [doc.textBetween(from, to)] *)
Definition textBetween (doc : Node) (from to : nat) : chars :=
  (take (to - from) (drop from doc)).*1.


Inductive Step :=
| ReplaceStep (from to : nat) (slice : Node).

Record Transaction := mkTransaction {
  doc : Node;
  steps : list Step;
  time : nat
}.



(** The two collaborators of the patcher that live outside the repository:
    the character diff of the [diff] package and the editor's mark lookup
    [doc.resolve(a).marksAcross(doc.resolve(b))], which answers for every
    pair of positions ([None] is its [null]). *)
Record Change := mkChange {
  count : nat;
  value : chars;
  added : bool;
  removed : bool
}.

Class DiffLibrary := {
  diffChars : chars → chars → list Change
}.

Class MarkLookup := {
  marksAcross : Node → nat → nat → option (list Mark)
}.

(** ** [utils/prosemirror.ts]: suggestion patches *)

Inductive ISuggestionPatch :=
| DELETE (from to : nat)
| INSERT (from to : nat) (text : chars) (getMarks : Transaction → list Mark).

Definition patch_from (p : ISuggestionPatch) : nat :=
  match p with DELETE f _ => f | INSERT f _ _ _ => f end.

Definition patch_to (p : ISuggestionPatch) : nat :=
  match p with DELETE _ t => t | INSERT _ t _ _ => t end.

Definition is_insert (p : ISuggestionPatch) : bool :=
  match p with INSERT _ _ _ _ => true | DELETE _ _ => false end.

(** The accumulator of the [reduce] over the diff runs. *)
Record Acc := mkAcc {
  fragments : list ISuggestionPatch;
  currentPos : nat
}.

Section Patcher.
Context `{!MarkLookup}.

(** Marks of the character before the insertion point; it is only asked
    for behind an earlier patch, where [newFrom] is at least 1. *)
Definition marksOfLastChar (newFrom : nat) : Transaction → list Mark :=
  λ localTr, default [] (marksAcross (doc localTr) (newFrom - 1) newFrom).

(** Marks across the range [newFrom, newTo). *)
Definition marksOfRange (newFrom newTo : nat) : Transaction → list Mark :=
  λ localTr, default [] (marksAcross (doc localTr) newFrom newTo).

(** The reducer callback of [getReplacementFragmentsFromReplacement]. *)
Definition reduceChange (from : nat) (acc : Acc) (patch : Change) : Acc :=
  if decide (count patch = 0) then
    {| fragments := fragments acc; currentPos := currentPos acc |}
  else if negb (added patch) && negb (removed patch) then
    {| fragments := fragments acc; currentPos := currentPos acc + count patch |}
  else
    let newFrom := from + currentPos acc in
    let newTo := newFrom + count patch in
    if removed patch then
      {| fragments := fragments acc ++ [DELETE newFrom newTo];
         currentPos := currentPos acc |}
    else
      let prevFragment := last (fragments acc) in
      let isInsertion :=
        match prevFragment with
        | Some prev => bool_decide (patch_to prev < newFrom)
        | None => false
        end in
      let getMarks :=
        if isInsertion then marksOfLastChar newFrom
        else marksOfRange newFrom newTo in
      {| fragments := fragments acc ++ [INSERT newFrom newTo (value patch) getMarks];
         currentPos := currentPos acc + count patch |}.

Definition reduceChanges (from : nat) (patches : list Change) (init : Acc) : Acc :=
  foldl (reduceChange from) init patches.

(** The resolver an insertion at [newFrom] gets, given the patches emitted
    before it. *)
Definition resolverFor (emitted : list ISuggestionPatch) (newFrom newTo : nat)
    : Transaction → list Mark :=
  match last emitted with
  | Some prev =>
      if bool_decide (patch_to prev < newFrom) then marksOfLastChar newFrom
      else marksOfRange newFrom newTo
  | None => marksOfRange newFrom newTo
  end.

Context `{!DiffLibrary}.

Definition getReplacementFragmentsFromReplacement
    (tr : Transaction) (from to : nat) (replacement : chars) : list ISuggestionPatch :=
  let currentText := textBetween (doc tr) from to in
  let patches := diffChars currentText replacement in
  fragments (reduceChanges from patches {| fragments := []; currentPos := 0 |}).

End Patcher.



(** What a character diff of [old] into [new] is: every run counts the
    characters of its value, no run is both added and removed, the runs
    that are not added spell [old] and the runs that are not removed spell
    [new]. *)
Definition oldSide (patches : list Change) : chars :=
  patches ≫= λ c, if added c then [] else value c.

Definition newSide (patches : list Change) : chars :=
  patches ≫= λ c, if removed c then [] else value c.

Definition wellFormedChange (c : Change) : Prop :=
  count c = length (value c) ∧ (added c && removed c = false).

Definition isDiffOf (old new : chars) (patches : list Change) : Prop :=
  Forall wellFormedChange patches ∧ oldSide patches = old ∧ newSide patches = new.

(** ** The Typerighter adapter *)

(** The outcome of an [async] function. *)
Inductive Promise (A : Type) :=
| Resolved (a : A)
| Rejected (message : string).
Arguments Resolved {A} a.
Arguments Rejected {A} message.

Definition await {A B} (p : Promise A) (k : A → Promise B) : Promise B :=
  match p with
  | Resolved a => k a
  | Rejected m => Rejected m
  end.

Notation "'let_await' x := p 'in' k" := (await p (λ x, k))
  (at level 10, x name, p at level 100, k at level 200, only parsing).

Module Typerighter.

Record IValidationInput := mkInput {
  id : string;
  str : chars;
  from : nat;
  to : nat
}.

Record IRule := mkRule { description : string }.

Record IMatch := mkMatch {
  fromPos : nat;
  toPos : nat;
  message : string;
  rule : IRule;
  suggestedReplacements : list string
}.

Record ITypeRighterResponse := mkData { results : list IMatch }.

Record RequestBody := mkBody { text : chars }.

Record RequestInit := mkInit {
  method : string;
  headers : list (string * string);
  body : RequestBody
}.

Record Response := mkResponse {
  status : nat;
  statusText : string;
  json : Promise ITypeRighterResponse
}.

Record Output := mkOutput {
  out_id : string;
  out_str : chars;
  out_from : nat;
  out_to : nat;
  annotation : string;
  type : string;
  suggestions : list string
}.

(** The network, outside the repository. *)
Class Fetch := { fetch : string → RequestInit → Promise Response }.

Definition errorMessage (response : Response) : string :=
  "Error fetching validations. The server responded with status code "
    +:+ pretty (status response) +:+ ": " +:+ statusText response.

Definition createTyperighterAdapter `{!Fetch} (apiUrl : string)
    (input : IValidationInput) : Promise (list Output) :=
  let_await response :=
    fetch apiUrl {| method := "POST";
                    headers := [("Content-Type", "application/json")];
                    body := {| text := str input |} |} in
  if negb (bool_decide (status response = 200)) then
    Rejected (errorMessage response)
  else
    let_await validationData := json response in
    Resolved ((λ match_, {| out_id := id input;
                             out_str := str input;
                             out_from := from input + fromPos match_;
                             out_to := from input + toPos match_;
                             annotation := message match_;
                             type := description (rule match_);
                             suggestions := suggestedReplacements match_ |})
                <$> results validationData).

Definition requestFor (input : IValidationInput) : RequestInit :=
  {| method := "POST";
     headers := [("Content-Type", "application/json")];
     body := {| text := str input |} |}.

End Typerighter.

(** ** The plugin state and its reducer *)

Module State.

Record Range := mkRange {
  from : nat;
  to : nat
}.

(** A [ValidationInput] is a range together with the text it covered:
    the reducer builds it as [{ str, ...range }]. *)
Record ValidationInput := mkValidationInput {
  str : chars;
  inputRange : Range
}.

(** Modelled from the spec: the [interfaces/Validation] declarations are not
    among the sources. A ValidationOutput is
    [{id, category, annotation, range, suggestions[]}]. *)
Record ValidationOutput := mkValidationOutput {
  id : string;
  category : string;
  annotation : string;
  range : Range;
  suggestions : list string
}.

Record ValidationResponse := mkValidationResponse {
  validationOutputs : list ValidationOutput
}.

(** The request id of an error is a number; [parseInt(String(id), 10)]
    gives it back. *)
Record ValidationError := mkValidationError {
  validationInput : ValidationInput;
  errorId : nat;
  message : string
}.

Record StateHoverInfo := mkStateHoverInfo {
  offsetLeft : Q;
  offsetTop : Q;
  left : Q;
  top : Q;
  height : Q;
  mouseOffsetX : Q;
  mouseOffsetY : Q;
  heightOfSingleLine : Q
}.

(** *** Decorations

    The editor's decoration collection: [find] with no bounds and a
    predicate on the decoration's spec, [remove] and [add]. *)
Record DecorationSpec := mkSpec { type : string }.

Record Decoration := mkDecoration {
  decorationFrom : nat;
  decorationTo : nat;
  spec : DecorationSpec
}.

#[global] Instance DecorationSpec_eq_dec : EqDecision DecorationSpec.
Proof. solve_decision. Defined.

#[global] Instance Decoration_eq_dec : EqDecision Decoration.
Proof. solve_decision. Defined.

Definition DecorationSet := list Decoration.

Definition touches (start end_ : option nat) (d : Decoration) : Prop :=
  match start with Some s => s ≤ decorationTo d | None => True end
  ∧ match end_ with Some e => decorationFrom d ≤ e | None => True end.

#[global] Instance touches_dec start end_ d : Decision (touches start end_ d).
Proof. destruct start, end_; simpl; apply _. Defined.

Definition find (set : DecorationSet) (start end_ : option nat)
    (predicate : DecorationSpec → bool) : list Decoration :=
  filter (λ d, touches start end_ d ∧ predicate (spec d)) set.

Definition remove (set : DecorationSet) (decorations : list Decoration) : DecorationSet :=
  filter (λ d, d ∉ decorations) set.

Definition add (set : DecorationSet) (doc : Node) (decorations : list Decoration)
    : DecorationSet :=
  set ++ decorations.

Record InFlight := mkInFlight {
  validationInputs : list ValidationInput;
  inFlightId : nat
}.

Record PluginState := mkPluginState {
  debug : bool;
  initialThrottle : nat;
  currentThrottle : nat;
  maxThrottle : nat;
  decorations : DecorationSet;
  currentValidations : list ValidationOutput;
  dirtiedRanges : list Range;
  hoverId : option string;
  hoverInfo : option StateHoverInfo;
  trHistory : list Transaction;
  validationPending : bool;
  validationInFlight : option InFlight;
  error : option string
}.

(** *** What the reducer imports

    The position mapping of one edit operation belongs to the editor. *)
Inductive Bias := BiasStart | BiasEnd.

Class PositionMapping := {
  mapPosition : Step → nat → Bias → nat
}.

(** The functions of [utils/range] and [utils/decoration] whose bodies the
    specification leaves open, taken as parameters. *)
Class RangeUtils := {
  getRangesOfParentBlockNodes : list Range → Node → list Range;
  mergeOutputsFromValidationResponse :
    ValidationResponse → list ValidationOutput → list Transaction → list ValidationOutput
}.

Class DecorationUtils := {
  DECORATION_INFLIGHT : string;
  DECORATION_DIRTY : string;
  getNewDecorationsForCurrentValidations :
    list ValidationOutput → DecorationSet → Node → DecorationSet;
  createDebugDecorationFromRange : Range → option bool → Decoration;
  removeValidationDecorationsFromRanges :
    DecorationSet → list Range → string → DecorationSet
}.

(** Modelled from the spec: [validationInputToRange] of [utils/range] is
    missing from the sources; it gives the original range of an input. *)
Definition validationInputToRange (input : ValidationInput) : Range :=
  {| from := from (inputRange input); to := to (inputRange input) |}.

(** Modelled from the spec: [mapRange] of [utils/range] is missing from the
    sources. It maps [from] with a bias toward the start of inserted
    content and [to] with a bias toward the end, through the edit
    operations in order. *)
Definition mapRange `{!PositionMapping} (range : Range) (editOps : list Step) : Range :=
  {| from := foldl (λ pos op, mapPosition op pos BiasStart) (from range) editOps;
     to := foldl (λ pos op, mapPosition op pos BiasEnd) (to range) editOps |}.

(** Modelled from the spec: [mapRangeThroughTransactions] of [utils/range] is
    missing from the sources. It selects the transactions of the history
    with an id greater than [fromTransactionId] and applies their edit
    operations in order. *)
Definition mapRangeThroughTransactions `{!PositionMapping} (ranges : list Range)
    (fromTransactionId : nat) (transactionHistory : list Transaction) : list Range :=
  let later := filter (λ tr, fromTransactionId < time tr) transactionHistory in
  (λ range, mapRange range (later ≫= steps)) <$> ranges.

(** Modelled from the spec: the scan of [mergeRanges], left to right,
    merging any range whose [from <= previous.to] into the previous range,
    with [to = max(previous.to, current.to)]. *)
Fixpoint mergeScan (previous : Range) (ranges : list Range) : list Range :=
  match ranges with
  | [] => [previous]
  | current :: rest =>
      if decide (from current ≤ to previous) then
        mergeScan {| from := from previous; to := to previous `max` to current |} rest
      else previous :: mergeScan current rest
  end.

(** Modelled from the spec: the order [mergeRanges] sorts by. *)
Definition startsBefore (a b : Range) : Prop := from a ≤ from b.

#[global] Instance startsBefore_dec : RelDecision startsBefore.
Proof. intros a b. unfold startsBefore. apply _. Defined.

(** Modelled from the spec: [mergeRanges] of [utils/range] is missing from the
    sources. It sorts by [from], then scans left to right. *)
Definition mergeRanges (ranges : list Range) : list Range :=
  match merge_sort startsBefore ranges with
  | [] => []
  | first :: rest => mergeScan first rest
  end.

(** *** Actions *)
Inductive Action :=
| NEW_HOVER_ID (hoverId : option string) (hoverInfo : option StateHoverInfo)
| VALIDATION_REQUEST_SUCCESS (response : option ValidationResponse)
| VALIDATION_REQUEST_START
| VALIDATION_REQUEST_PENDING
| VALIDATION_REQUEST_ERROR (validationError : ValidationError).

Section Reducer.
Context `{!PositionMapping, !RangeUtils, !DecorationUtils}.

Definition isInFlight (s : DecorationSpec) : bool :=
  bool_decide (type s = DECORATION_INFLIGHT).

Definition handleNewHoverId (_ : Transaction) (state : PluginState)
    (payloadHoverId : option string) (payloadHoverInfo : option StateHoverInfo)
    : PluginState :=
  {| debug := debug state;
     initialThrottle := initialThrottle state;
     currentThrottle := currentThrottle state;
     maxThrottle := maxThrottle state;
     decorations := decorations state;
     currentValidations := currentValidations state;
     dirtiedRanges := dirtiedRanges state;
     hoverId := payloadHoverId;
     hoverInfo := payloadHoverInfo;
     trHistory := trHistory state;
     validationPending := validationPending state;
     validationInFlight := validationInFlight state;
     error := error state |}.

Definition handleValidationRequestPending (_ : Transaction) (state : PluginState)
    : PluginState :=
  {| debug := debug state;
     initialThrottle := initialThrottle state;
     currentThrottle := currentThrottle state;
     maxThrottle := maxThrottle state;
     decorations := decorations state;
     currentValidations := currentValidations state;
     dirtiedRanges := dirtiedRanges state;
     hoverId := hoverId state;
     hoverInfo := hoverInfo state;
     trHistory := trHistory state;
     validationPending := true;
     validationInFlight := validationInFlight state;
     error := error state |}.

Definition handleValidationRequestStart (tr : Transaction) (state : PluginState)
    : PluginState :=
  let expandedRanges := getRangesOfParentBlockNodes (dirtiedRanges state) (doc tr) in
  let validationInputs :=
    (λ range, {| str := textBetween (doc tr) (from range) (to range);
                 inputRange := range |}) <$> expandedRanges in
  let decorations :=
    add (removeValidationDecorationsFromRanges
           (decorations state) expandedRanges DECORATION_DIRTY)
        (doc tr)
        ((λ range, createDebugDecorationFromRange range (Some false))
           <$> expandedRanges) in
  {| debug := debug state;
     initialThrottle := initialThrottle state;
     currentThrottle := currentThrottle state;
     maxThrottle := maxThrottle state;
     decorations := decorations;
     currentValidations := currentValidations state;
     dirtiedRanges := [];
     hoverId := hoverId state;
     hoverInfo := hoverInfo state;
     trHistory := trHistory state;
     validationPending := false;
     validationInFlight :=
       Some {| validationInputs := validationInputs; inFlightId := time tr |};
     error := error state |}.

Definition handleValidationRequestSuccess (tr : Transaction) (state : PluginState)
    (payloadResponse : option ValidationResponse) : PluginState :=
  match payloadResponse with
  | Some response =>
      if decide (length (validationOutputs response) ≠ 0) then
        let currentValidations :=
          mergeOutputsFromValidationResponse
            response (currentValidations state) (trHistory state) in
        let decorations :=
          getNewDecorationsForCurrentValidations
            currentValidations (decorations state) (doc tr) in
        let decsToRemove := find (State.decorations state) None None isInFlight in
        {| debug := debug state;
           initialThrottle := initialThrottle state;
           currentThrottle := currentThrottle state;
           maxThrottle := maxThrottle state;
           decorations := remove decorations decsToRemove;
           currentValidations := currentValidations;
           dirtiedRanges := dirtiedRanges state;
           hoverId := hoverId state;
           hoverInfo := hoverInfo state;
           trHistory := trHistory state;
           validationPending := validationPending state;
           validationInFlight := None;
           error := error state |}
      else state
  | None => state
  end.

Definition handleValidationRequestError (tr : Transaction) (state : PluginState)
    (validationError : ValidationError) : PluginState :=
  let decsToRemove := find (decorations state) None None isInFlight in
  let dirtiedRanges :=
    mapRangeThroughTransactions
      [validationInputToRange (validationInput validationError)]
      (errorId validationError)
      (trHistory state) in
  let decorations := remove (decorations state) decsToRemove in
  let decorations :=
    if decide (length dirtiedRanges ≠ 0) then
      add decorations (doc tr)
          ((λ range, createDebugDecorationFromRange range None) <$> dirtiedRanges)
    else decorations in
  {| debug := debug state;
     initialThrottle := initialThrottle state;
     currentThrottle := currentThrottle state;
     maxThrottle := maxThrottle state;
     decorations := decorations;
     currentValidations := currentValidations state;
     dirtiedRanges :=
       if decide (length dirtiedRanges ≠ 0) then
         mergeRanges (State.dirtiedRanges state ++ dirtiedRanges)
       else State.dirtiedRanges state;
     hoverId := hoverId state;
     hoverInfo := hoverInfo state;
     trHistory := trHistory state;
     validationPending := validationPending state;
     validationInFlight := None;
     error := Some (message validationError) |}.

Definition validationPluginReducer (tr : Transaction) (state : PluginState)
    (action : Action) : PluginState :=
  match action with
  | NEW_HOVER_ID hoverId hoverInfo => handleNewHoverId tr state hoverId hoverInfo
  | VALIDATION_REQUEST_PENDING => handleValidationRequestPending tr state
  | VALIDATION_REQUEST_START => handleValidationRequestStart tr state
  | VALIDATION_REQUEST_SUCCESS response =>
      handleValidationRequestSuccess tr state response
  | VALIDATION_REQUEST_ERROR validationError =>
      handleValidationRequestError tr state validationError
  end.

End Reducer.

End State.

(** ** Concrete collaborators, for examples *)

(** A diff library that answers with a fixed edit script. *)
Definition scriptedDiff (script : list Change) : DiffLibrary :=
  {| diffChars := λ _ _, script |}.

(** A mark lookup on the flat document: the marks of the character after
    the start position, [null] at the end of the text. *)
Definition marksAfter : MarkLookup :=
  {| marksAcross := λ doc start _, snd <$> doc !! start |}.

Definition plain (s : string) : Node :=
  (λ c, (c, [])) <$> String.list_ascii_of_string s.

Definition equalRun (s : string) : Change :=
  {| count := String.length s; value := String.list_ascii_of_string s;
     added := false; removed := false |}.

Definition addedRun (s : string) : Change :=
  {| count := String.length s; value := String.list_ascii_of_string s;
     added := true; removed := false |}.


Definition emptyAcc : Acc := {| fragments := []; currentPos := 0 |}.

(** The coarsest character diff: drop the whole current text, add the whole
    replacement. *)
Definition wholesaleDiff : DiffLibrary :=
  {| diffChars := λ old new,
       [{| count := length old; value := old; added := false; removed := true |};
        {| count := length new; value := new; added := true; removed := false |}] |}.




Definition catTransaction : Transaction :=
  {| doc := plain "cat"; steps := []; time := 1 |}.

Definition catsDiff : DiffLibrary :=
  scriptedDiff [equalRun "cat"; addedRun "s"].




Module TyperighterExamples.
Import Typerighter.

Definition weatherInput : IValidationInput :=
  {| id := "block-1"; str := String.list_ascii_of_string "teh weather";
     from := 10; to := 21 |}.

Definition unavailable : Fetch :=
  {| fetch := λ _ _, Resolved {| status := 503;
                                 statusText := "Service Unavailable";
                                 json := Rejected "Unexpected end of JSON input" |} |}.

Definition tehMatch : IMatch :=
  {| fromPos := 0; toPos := 3; message := "Possible spelling mistake";
     rule := {| description := "Spelling" |};
     suggestedReplacements := ["the"] |}.

Definition oneMatch : Fetch :=
  {| fetch := λ _ _, Resolved {| status := 200; statusText := "OK";
                                 json := Resolved {| results := [tehMatch] |} |} |}.

End TyperighterExamples.

Module StateExamples.
Import State.

Definition identityMapping : PositionMapping :=
  {| mapPosition := λ _ pos _, pos |}.

Definition wholeText : RangeUtils :=
  {| getRangesOfParentBlockNodes :=
       λ ranges doc, match ranges with
                     | [] => []
                     | _ => [{| from := 0; to := length doc |}]
                     end;
     mergeOutputsFromValidationResponse :=
       λ response current _, current ++ validationOutputs response |}.

Definition validationDecoration (output : ValidationOutput) : Decoration :=
  {| decorationFrom := from (range output);
     decorationTo := to (range output);
     spec := {| type := "DECORATION_VALIDATION" |} |}.

Definition debugMarkers : DecorationUtils :=
  {| DECORATION_INFLIGHT := "DECORATION_INFLIGHT";
     DECORATION_DIRTY := "DECORATION_DIRTY";
     getNewDecorationsForCurrentValidations :=
       λ outputs decorations _, decorations ++ (validationDecoration <$> outputs);
     createDebugDecorationFromRange :=
       λ range dirty,
         {| decorationFrom := from range;
            decorationTo := to range;
            spec := {| type := if default true dirty then "DECORATION_DIRTY"
                               else "DECORATION_INFLIGHT" |} |};
     removeValidationDecorationsFromRanges :=
       λ decorations _ type_, filter (λ d, type (spec d) ≠ type_) decorations |}.

Definition typedText : Transaction :=
  {| doc := plain "teh weather"; steps := []; time := 10 |}.

Definition inFlightMarker : Decoration :=
  {| decorationFrom := 0; decorationTo := 11;
     spec := {| type := "DECORATION_INFLIGHT" |} |}.

Definition wholeInput : ValidationInput :=
  {| str := String.list_ascii_of_string "teh weather";
     inputRange := {| from := 0; to := 11 |} |}.

Definition awaiting : PluginState :=
  {| debug := true;
     initialThrottle := 2000;
     currentThrottle := 2000;
     maxThrottle := 4000;
     decorations := [inFlightMarker];
     currentValidations := [];
     dirtiedRanges := [];
     hoverId := None;
     hoverInfo := None;
     trHistory := [typedText];
     validationPending := false;
     validationInFlight :=
       Some {| validationInputs := [wholeInput]; inFlightId := 10 |};
     error := None |}.

Definition tehOutput : ValidationOutput :=
  {| id := "10-from:0-to:3"; category := "Spelling";
     annotation := "Possible spelling mistake";
     range := {| from := 0; to := 3 |}; suggestions := ["the"] |}.


End StateExamples.

(** ** Further observations on patches *)

(** The text an insertion carries; a deletion carries none. *)
Definition patch_text (p : ISuggestionPatch) : option chars :=
  match p with DELETE _ _ => None | INSERT _ _ text _ => Some text end.

(** The runs of a diff that the walk turns into a patch: those that have
    characters and are added or removed. *)
Definition changedRun (c : Change) : Prop :=
  count c ≠ 0 ∧ (added c || removed c).

#[global] Instance changedRun_dec c : Decision (changedRun c).
Proof. unfold changedRun. apply _. Defined.


(** The patches emitted so far lie left to right, between [from] and the
    cursor, and each spans at least one character. *)
Definition laidOut (from : nat) (acc : Acc) : Prop :=
  StronglySorted le (patch_from <$> fragments acc)
  ∧ Forall (λ p, from ≤ patch_from p ∧ patch_from p ≤ from + currentPos acc
                 ∧ patch_from p < patch_to p) (fragments acc).

(** ** Replace steps of a transaction *)

Module ReplaceSteps.
Import State.





End ReplaceSteps.

Module TyperighterFailures.
Import Typerighter.

(** A network that is down. *)
Definition offline : Fetch :=
  {| fetch := λ _ _, Rejected "Failed to fetch" |}.

(** A service that answers 200 with a page that is no JSON. *)
Definition garbled : Fetch :=
  {| fetch := λ _ _, Resolved {| status := 200; statusText := "OK";
                                 json := Rejected "Unexpected token < in JSON at position 0" |} |}.

End TyperighterFailures.

Module StateSelectors.
Import State.

(** [selectValidationById]: the first current validation with the id. *)
Definition selectValidationById (state : PluginState) (id : string)
    : option ValidationOutput :=
  List.find (λ validation, bool_decide (State.id validation = id))
            (currentValidations state).

End StateSelectors.

(** ** The document as a tree

    The functions of [utils/prosemirror.ts] that walk the structure of a
    document see it as the editor keeps it: a tree of nodes. A text node
    holds at least one character; an atom (an image, a line break) has no
    content and takes one position; any other node takes one position for its
    opening, its content, and one position for its closing. *)

Module Tree.
Import State.

Record NodeType := mkNodeType {
  name : string;
  isBlock : bool
}.

Unset Elimination Schemes.
Inductive PMNode :=
| TextNode (first : ascii) (rest : chars) (marks : list Mark)
| Atom (type : NodeType)
| Branch (type : NodeType) (content : list PMNode).
Set Elimination Schemes.

(** [node.type.isBlock]; text is inline. *)
Definition nodeIsBlock (node : PMNode) : bool :=
  match node with
  | TextNode _ _ _ => false
  | Atom type | Branch type _ => isBlock type
  end.

(** [node.content], as the list of its children. *)
Definition children (node : PMNode) : list PMNode :=
  match node with
  | Branch _ content => content
  | _ => []
  end.

(** [node.nodeSize] *)
Fixpoint nodeSize (node : PMNode) : nat :=
  match node with
  | TextNode _ rest _ => 1 + length rest
  | Atom _ => 1
  | Branch _ content => 2 + sum_list (nodeSize <$> content)
  end.

(** [node.content.size] *)
Definition contentSize (node : PMNode) : nat :=
  sum_list (nodeSize <$> children node).

(** The loop of the editor's [nodesBetween] over the children [cs] of
    [parent], whose content starts at [nodeStart]; [pos] is the offset of the
    next child in that content. The callback [f] is given the child, its
    position and its parent; it threads what it collects through [S] and
    answers whether the walk may enter the child ([false] is its
    [return false]). *)
Definition visitChildren {S} (enter : PMNode → nat → S → S)
    (f : PMNode → nat → PMNode → S → S * bool) (parent : PMNode) (nodeStart : nat)
    : list PMNode → nat → S → S :=
  fix go (cs : list PMNode) (pos : nat) (s : S) : S :=
    match cs with
    | [] => s
    | child :: rest =>
        let '(s1, goOn) := f child (nodeStart + pos) parent s in
        let s2 :=
          if goOn && bool_decide (contentSize child ≠ 0)
          then enter child (nodeStart + pos + 1) s1
          else s1 in
        go rest (pos + nodeSize child) s2
    end.

(** [node.nodesBetween(0, node.content.size, f, nodeStart)] *)
Fixpoint nodesBetween {S} (node : PMNode)
    (f : PMNode → nat → PMNode → S → S * bool) (nodeStart : nat) (s : S) : S :=
  match node with
  | Branch _ content =>
      visitChildren (λ child, nodesBetween child f) f node nodeStart content 0 s
  | _ => s
  end.

(** [node.descendants(f)] *)
Definition descendants {S} (node : PMNode)
    (f : PMNode → nat → PMNode → S → S * bool) (s : S) : S :=
  nodesBetween node f 0 s.

Record Entry := mkEntry {
  node : PMNode;
  parent : PMNode;
  pos : nat
}.

(** [flatten(node, descend = true)] *)
Definition flatten (node : PMNode) (descend : option bool) : list Entry :=
  let descend := default true descend in
  descendants node
    (λ child pos parent result,
       (result ++ [{| node := child; parent := parent; pos := pos |}], descend))
    [].

(** [findChildren(node, predicate, descend)] *)
Definition findChildren (node : PMNode) (predicate : PMNode → bool) (descend : bool)
    : list Entry :=
  filter (λ child, predicate (Tree.node child)) (flatten node (Some descend)).

(** [createBlock] of [utils/block] is not among the sources; it is taken as
    a parameter. *)
Class BlockFactory := {
  IBlock : Type;
  createBlock : PMNode → Range → nat → IBlock
}.

(** [getBlocksFromDocument(doc, time = 0)] *)
Definition getBlocksFromDocument `{!BlockFactory} (doc : PMNode) (time : option nat)
    : list IBlock :=
  let time := default 0 time in
  descendants doc
    (λ descNode pos _ ranges,
       if bool_decide (length (findChildren descNode nodeIsBlock false) = 0) then
         (ranges ++ [createBlock doc
                       {| from := pos + 1; to := pos + nodeSize descNode |} time],
          false)
       else (ranges, true))
    [].

(** The block factory that keeps the range it is given. *)
Definition rangeOfBlock : BlockFactory :=
  {| IBlock := Range; createBlock := λ _ range _, range |}.

(** A callback that appends what it makes of each visit to what it has
    collected, and decides on entering the child from the visit alone. *)
Definition collecting {A} (emit : Entry → list A) (goOn : PMNode → nat → PMNode → bool)
    : PMNode → nat → PMNode → list A → list A * bool :=
  λ child pos parent collected,
    (collected ++ emit {| node := child; parent := parent; pos := pos |},
     goOn child pos parent).

(** The visits a walk makes, in the order it makes them. *)
Definition visits (node : PMNode) (goOn : PMNode → nat → PMNode → bool)
    (nodeStart : nat) : list Entry :=
  nodesBetween node (collecting (λ e, [e]) goOn) nodeStart [].

(** The visits among the children [cs] of [parent] that follow content of
    size [pos]. *)
Definition visitsAmong (goOn : PMNode → nat → PMNode → bool) (parent : PMNode)
    (nodeStart : nat) (cs : list PMNode) (pos : nat) : list Entry :=
  visitChildren (λ child, nodesBetween child (collecting (λ e, [e]) goOn))
    (collecting (λ e, [e]) goOn) parent nodeStart cs pos [].

(** The visit [e] lies in the content that starts at [start] and has size
    [size], and it is a visit of a child of its parent. *)
Definition visitWithin (start size : nat) (e : Entry) : Prop :=
  start ≤ pos e
  ∧ pos e + nodeSize (node e) ≤ start + size
  ∧ node e ∈ children (parent e).

(** The visit [e1] comes before the visit [e2]: it starts earlier, and it
    ends before [e2] starts unless the walk was let into its node. *)
Definition comesBefore (goOn : PMNode → nat → PMNode → bool) (e1 e2 : Entry) : Prop :=
  pos e1 < pos e2
  ∧ (pos e1 + nodeSize (node e1) ≤ pos e2 ∨ goOn (node e1) (pos e1) (parent e1)).

(** The test of [getBlocksFromDocument]: the node has no child that is a
    block. *)
Definition withoutBlockChild (descNode : PMNode) : bool :=
  bool_decide (length (findChildren descNode nodeIsBlock false) = 0).

(** The range [getBlocksFromDocument] makes of a node at a position. *)
Definition rangeInside (descNode : PMNode) (pos : nat) : Range :=
  {| from := pos + 1; to := pos + nodeSize descNode |}.

(** The number of nodes below a node. *)
Fixpoint descendantCount (node : PMNode) : nat :=
  match node with
  | Branch _ content => sum_list ((λ child, 1 + descendantCount child) <$> content)
  | _ => 0
  end.

(** The offsets, in their parent's content, of the children [cs] that
    follow content of size [pos]. *)
Fixpoint offsetsFrom (pos : nat) (cs : list PMNode) : list nat :=
  match cs with
  | [] => []
  | child :: rest => pos :: offsetsFrom (pos + nodeSize child) rest
  end.

(** A document of two paragraphs, "teh" and "weather". *)
Definition paragraphType : NodeType := {| name := "paragraph"; isBlock := true |}.

Definition docType : NodeType := {| name := "doc"; isBlock := true |}.

Definition twoParagraphs : PMNode :=
  Branch docType
    [Branch paragraphType [TextNode "t" (String.list_ascii_of_string "eh") []];
     Branch paragraphType [TextNode "w" (String.list_ascii_of_string "eather") []]].

End Tree.

(** ** Properties of the patcher *)

Section PatcherFacts.
Context `{!MarkLookup}.

Lemma reduceChanges_snoc from patches patch init :
  reduceChanges from (patches ++ [patch]) init
  = reduceChange from (reduceChanges from patches init) patch.
Proof. unfold reduceChanges. by rewrite foldl_app. Qed.




Lemma reduceChange_added from acc patch :
  added patch = true → removed patch = false → count patch ≠ 0 →
  reduceChange from acc patch
  = {| fragments := fragments acc
         ++ [INSERT (from + currentPos acc) (from + currentPos acc + count patch)
               (value patch)
               (resolverFor (fragments acc) (from + currentPos acc)
                  (from + currentPos acc + count patch))];
       currentPos := currentPos acc + count patch |}.
Proof.
  intros Ha Hr Hc. unfold reduceChange, resolverFor.
  rewrite decide_False by done. rewrite Ha, Hr. simpl.
  by destruct (last (fragments acc)).
Qed.

End PatcherFacts.









(** Every pair of texts has a character diff. *)
Lemma wholesaleDiff_is_diff (old new : chars) :
  isDiffOf old new (@diffChars wholesaleDiff old new).
Proof.
  split_and!; [repeat constructor| |]; cbn; by rewrite !app_nil_r.
Qed.






(** C4, as the specification words it, fails: the insertion that turns
    "cat" into "cats" is emitted with [from = 3] and [to = 4]. *)
Lemma insert_from_differs_from_to :
  ∃ p,
    @getReplacementFragmentsFromReplacement marksAfter catsDiff catTransaction 0 3
      (String.list_ascii_of_string "cats") = [p]
    ∧ is_insert p = true
    ∧ patch_from p = 3
    ∧ patch_to p = 4
    ∧ patch_from p ≠ patch_to p.
Proof. eexists. split_and!; [reflexivity..|]. simpl. lia. Qed.

(** C4 (amended). For every added run of at least one character in the
    walk, an [INSERT] patch is emitted whose [from] is [from + currentPos]
    at that run, whose [to] is that position plus the run's character count,
    and whose text is the run's value, and the cursor advances by the count;
    in particular, when the diff of "cat" into "cats" is the equal run "cat"
    followed by the added run "s", the result is the single patch
    [INSERT] with [from = 3], [to = 4] and text "s". *)
Theorem added_run_emits_insert `{!MarkLookup, !DiffLibrary}
    (from : nat) (before : list Change) (patch : Change) (tr : Transaction) :
  let acc := reduceChanges from before emptyAcc in
  let acc' := reduceChanges from (before ++ [patch]) emptyAcc in
  (added patch = true → removed patch = false → count patch ≠ 0 →
     ∃ getMarks,
       fragments acc'
         = fragments acc
             ++ [INSERT (from + currentPos acc) (from + currentPos acc + count patch)
                   (value patch) getMarks]
       ∧ currentPos acc' = currentPos acc + count patch)
  ∧ (textBetween (doc tr) 0 3 = String.list_ascii_of_string "cat" →
     diffChars (String.list_ascii_of_string "cat") (String.list_ascii_of_string "cats")
       = [equalRun "cat"; addedRun "s"] →
     ∃ getMarks,
       getReplacementFragmentsFromReplacement tr 0 3 (String.list_ascii_of_string "cats")
         = [INSERT 3 4 (String.list_ascii_of_string "s") getMarks]).
Proof.
  intros acc acc'. subst acc'. rewrite reduceChanges_snoc. fold acc. split.
  - intros Ha Hr Hc. rewrite reduceChange_added by done. by eexists.
  - intros Htext Hdiff. unfold getReplacementFragmentsFromReplacement.
    rewrite Htext, Hdiff. by eexists.
Qed.

Lemma added_run_emits_insert_witness :
  (∃ getMarks,
     fragments (@reduceChanges marksAfter 2 [equalRun "ca"; addedRun "r"] emptyAcc)
       = [INSERT 4 5 (String.list_ascii_of_string "r") getMarks]
     ∧ currentPos (@reduceChanges marksAfter 2 [equalRun "ca"; addedRun "r"] emptyAcc)
       = 3)
  ∧ ∃ getMarks,
      @getReplacementFragmentsFromReplacement marksAfter catsDiff catTransaction 0 3
        (String.list_ascii_of_string "cats")
      = [INSERT 3 4 (String.list_ascii_of_string "s") getMarks].
Proof.
  pose proof (@added_run_emits_insert marksAfter catsDiff 2 [equalRun "ca"]
                (addedRun "r") catTransaction) as H.
  cbv zeta in H. destruct H as (Hadded & Hcats). split.
  - apply Hadded; [reflexivity | reflexivity | simpl; lia].
  - apply Hcats; reflexivity.
Defined.




(** ** Properties of the Typerighter adapter *)

Module TyperighterFacts.
Import Typerighter TyperighterExamples.

(** C8. When the service answers the adapter's request with a status other
    than 200, the adapter fails with the message "Error fetching
    validations. The server responded with status code <status>:
    <statusText>" and yields no outputs; when it answers with status 200 and
    a body that parses, the adapter yields one output per result, in order,
    each with the input's id and with the result's [fromPos] and [toPos]
    offset by the input's [from]. *)
Theorem adapter_outcome `{!Fetch} (apiUrl : string) (input : IValidationInput)
    (response : Response) :
  fetch apiUrl (requestFor input) = Resolved response →
  (status response ≠ 200 →
     createTyperighterAdapter apiUrl input
       = Rejected ("Error fetching validations. The server responded with status code "
                     +:+ pretty (status response) +:+ ": " +:+ statusText response)
     ∧ ∀ outputs, createTyperighterAdapter apiUrl input ≠ Resolved outputs)
  ∧ (status response = 200 →
     ∀ data, json response = Resolved data →
       ∃ outputs,
         createTyperighterAdapter apiUrl input = Resolved outputs
         ∧ length outputs = length (results data)
         ∧ ∀ i match_, results data !! i = Some match_ →
             ∃ output,
               outputs !! i = Some output
               ∧ out_id output = id input
               ∧ out_from output = from input + fromPos match_
               ∧ out_to output = from input + toPos match_).
Proof.
  intros Hfetch. unfold createTyperighterAdapter. fold (requestFor input).
  rewrite Hfetch. cbn [await]. split.
  - intros Hstatus. rewrite bool_decide_eq_false_2 by done. cbn [negb].
    split; [done|]. intros outputs. discriminate.
  - intros Hstatus data Hjson. rewrite bool_decide_eq_true_2 by done. cbn [negb].
    rewrite Hjson. cbn [await]. eexists. split; [reflexivity|].
    split; [by rewrite length_fmap|].
    intros i match_ Hi. rewrite list_lookup_fmap, Hi. cbn. eauto.
Qed.

Lemma adapter_outcome_witness :
  @createTyperighterAdapter unavailable "https://typerighter.example/check" weatherInput
    = Rejected "Error fetching validations. The server responded with status code 503: Service Unavailable"
  ∧ ∃ outputs,
      @createTyperighterAdapter oneMatch "https://typerighter.example/check" weatherInput
        = Resolved outputs
      ∧ length outputs = 1
      ∧ ∃ output,
          outputs !! 0 = Some output
          ∧ out_id output = "block-1"
          ∧ out_from output = 10 + 0
          ∧ out_to output = 10 + 3.
Proof.
  split.
  - destruct (@adapter_outcome unavailable "https://typerighter.example/check"
                weatherInput _ eq_refl) as [Hfail _].
    destruct Hfail as [Hmessage _]; [simpl; lia|]. exact Hmessage.
  - destruct (@adapter_outcome oneMatch "https://typerighter.example/check"
                weatherInput _ eq_refl) as [_ Hok].
    destruct (Hok eq_refl _ eq_refl) as (outputs & Hout & Hlen & Heach).
    exists outputs. split_and!; [exact Hout | exact Hlen |].
    apply (Heach 0 tehMatch). reflexivity.
Defined.

End TyperighterFacts.

(** ** Properties of the reducer *)

Module StateFacts.
Import State StateExamples.

Section ReducerFacts.
Context `{!PositionMapping, !RangeUtils, !DecorationUtils}.

(** C10. A NEW_HOVER_ID action sets [hoverId] and [hoverInfo] to its
    payload and leaves every other field of the state as it was. *)
Theorem new_hover_id_frame (tr : Transaction) (state : PluginState)
    (payloadHoverId : option string) (payloadHoverInfo : option StateHoverInfo) :
  let state' :=
    validationPluginReducer tr state (NEW_HOVER_ID payloadHoverId payloadHoverInfo) in
  hoverId state' = payloadHoverId
  ∧ hoverInfo state' = payloadHoverInfo
  ∧ decorations state' = decorations state
  ∧ currentValidations state' = currentValidations state
  ∧ dirtiedRanges state' = dirtiedRanges state
  ∧ trHistory state' = trHistory state
  ∧ validationPending state' = validationPending state
  ∧ validationInFlight state' = validationInFlight state
  ∧ error state' = error state
  ∧ initialThrottle state' = initialThrottle state
  ∧ currentThrottle state' = currentThrottle state
  ∧ maxThrottle state' = maxThrottle state
  ∧ debug state' = debug state.
Proof. intros state'. subst state'. cbn. split_and!; reflexivity. Qed.

(** C9. Whatever the action, the reducer returns a state with the
    [initialThrottle], [currentThrottle] and [maxThrottle] of the state it
    was given. *)
Theorem reducer_keeps_throttle (tr : Transaction) (state : PluginState)
    (action : Action) :
  let state' := validationPluginReducer tr state action in
  initialThrottle state' = initialThrottle state
  ∧ currentThrottle state' = currentThrottle state
  ∧ maxThrottle state' = maxThrottle state.
Proof.
  intros state'. subst state'.
  destruct action as [hid hinfo|[response|]| | |validationError]; cbn;
    try (split_and!; reflexivity).
  case_decide; split_and!; reflexivity.
Qed.

(** C6. A RequestStart action with transaction [tr] returns a state with
    no dirtied ranges, [validationPending] false, and an in-flight
    descriptor whose id is [tr.time] and whose inputs are, in order, the
    ranges [getRangesOfParentBlockNodes] makes of the dirtied ranges in
    [tr.doc], each with the text of [tr.doc] between its ends. *)
Theorem request_start_records_inputs (tr : Transaction) (state : PluginState) :
  let state' := validationPluginReducer tr state VALIDATION_REQUEST_START in
  let expandedRanges := getRangesOfParentBlockNodes (dirtiedRanges state) (doc tr) in
  dirtiedRanges state' = []
  ∧ validationPending state' = false
  ∧ ∃ inFlight,
      validationInFlight state' = Some inFlight
      ∧ inFlightId inFlight = time tr
      ∧ inputRange <$> validationInputs inFlight = expandedRanges
      ∧ ∀ input, input ∈ validationInputs inFlight →
          str input = textBetween (doc tr) (from (inputRange input)) (to (inputRange input)).
Proof.
  intros state' expandedRanges. subst state'. cbn.
  split_and!; [reflexivity..|]. eexists. split_and!; [reflexivity..| |].
  - cbn. rewrite <-list_fmap_compose. apply list_fmap_id.
  - cbn. intros input (range & -> & _)%list_elem_of_fmap. reflexivity.
Qed.

Lemma find_remove_in_flight (added_ previous : DecorationSet) :
  (∀ d, d ∈ added_ → isInFlight (spec d) → d ∈ previous) →
  find (remove added_ (find previous None None isInFlight)) None None isInFlight = [].
Proof.
  intros Hsub. unfold find, remove.
  apply elem_of_nil_inv.
  intros d [[_ Hflight] [Hnot Hd]%list_elem_of_filter]%list_elem_of_filter.
  apply Hnot, list_elem_of_filter. split; [|by apply Hsub].
  split; [done|exact Hflight].
Qed.

(** C2 (amended). Provided the decorations computed for the current
    validations contain no in-flight marker that was not there before, a
    RequestSuccess action carrying a response with at least one validation
    output returns a state whose [validationInFlight] is undefined and whose
    decorations contain no in-flight marker; a RequestSuccess action carrying
    no response, or a response with no validation outputs, returns the state
    it was given. *)
Theorem request_success_clears_in_flight (tr : Transaction) (state : PluginState)
    (payloadResponse : option ValidationResponse) :
  (∀ outputs previous doc d,
     d ∈ getNewDecorationsForCurrentValidations outputs previous doc →
     isInFlight (spec d) → d ∈ previous) →
  let state' :=
    validationPluginReducer tr state (VALIDATION_REQUEST_SUCCESS payloadResponse) in
  ((∃ response, payloadResponse = Some response ∧ validationOutputs response ≠ []) →
     validationInFlight state' = None
     ∧ find (decorations state') None None isInFlight = [])
  ∧ ((∀ response, payloadResponse = Some response → validationOutputs response = []) →
     state' = state).
Proof.
  intros Hnew state'. subst state'. cbn. split.
  - intros (response & -> & Hsome). cbn.
    case_decide as Hlength.
    + cbn. split; [done|]. apply find_remove_in_flight. intros d. apply Hnew.
    + destruct Hsome. apply nil_length_inv. lia.
  - intros Hnone. destruct payloadResponse as [response|]; cbn; [|done].
    case_decide as Hlength; [|done].
    destruct Hlength. by rewrite (Hnone response).
Qed.




End ReducerFacts.

Lemma debugMarkers_add_no_in_flight outputs previous doc d :
  d ∈ @getNewDecorationsForCurrentValidations debugMarkers outputs previous doc →
  @isInFlight debugMarkers (spec d) → d ∈ previous.
Proof.
  cbn. intros [Hd|(output & -> & _)%list_elem_of_fmap]%elem_of_app Hflight; [done|].
  by vm_compute in Hflight.
Qed.

(** C2, as the specification words it, fails: a response without
    validation outputs leaves the in-flight descriptor, and the in-flight
    marker, in place. *)
Lemma empty_response_keeps_in_flight :
  let state' :=
    @validationPluginReducer identityMapping wholeText debugMarkers typedText awaiting
      (VALIDATION_REQUEST_SUCCESS (Some {| validationOutputs := [] |})) in
  validationInFlight state' ≠ None
  ∧ find (decorations state') None None (@isInFlight debugMarkers) = [inFlightMarker].
Proof. split; [discriminate | reflexivity]. Qed.

Lemma request_success_clears_in_flight_witness :
  (let state' :=
     @validationPluginReducer identityMapping wholeText debugMarkers typedText awaiting
       (VALIDATION_REQUEST_SUCCESS
          (Some {| validationOutputs := [tehOutput] |})) in
   validationInFlight state' = None
   ∧ find (decorations state') None None (@isInFlight debugMarkers) = [])
  ∧ @validationPluginReducer identityMapping wholeText debugMarkers typedText awaiting
      (VALIDATION_REQUEST_SUCCESS None) = awaiting.
Proof.
  split.
  - destruct (@request_success_clears_in_flight identityMapping wholeText debugMarkers
                typedText awaiting
                (Some {| validationOutputs := [tehOutput] |})
                debugMarkers_add_no_in_flight) as [Hclears _].
    apply Hclears. eexists. split; [reflexivity | discriminate].
  - destruct (@request_success_clears_in_flight identityMapping wholeText debugMarkers
                typedText awaiting None debugMarkers_add_no_in_flight) as [_ Hkeeps].
    apply Hkeeps. discriminate.
Defined.


End StateFacts.

(** ** Further properties of the patcher *)

Section PatcherShape.
Context `{!MarkLookup}.

Lemma reduceChange_unchanged_run from acc patch :
  ¬ changedRun patch → fragments (reduceChange from acc patch) = fragments acc.
Proof.
  unfold changedRun, reduceChange. intros Hno.
  case_decide as Hc; [done|].
  destruct (added patch), (removed patch); cbn; try done; destruct Hno; done.
Qed.

Lemma reduceChange_changed_run from acc patch :
  changedRun patch →
  ∃ p, fragments (reduceChange from acc patch) = fragments acc ++ [p]
       ∧ patch_text p = (if removed patch then None else Some (value patch))
       ∧ patch_from p = from + currentPos acc
       ∧ patch_to p = from + currentPos acc + count patch.
Proof.
  unfold changedRun, reduceChange. intros [Hc Hflag].
  rewrite decide_False by done.
  destruct (added patch), (removed patch); cbn; try done; by eexists.
Qed.

Lemma reduceChange_cursor from acc patch :
  currentPos acc ≤ currentPos (reduceChange from acc patch).
Proof.
  unfold reduceChange. case_decide; [done|].
  destruct (added patch), (removed patch); cbn; lia.
Qed.

Lemma patch_texts_from from patches acc :
  patch_text <$> fragments (reduceChanges from patches acc)
  = (patch_text <$> fragments acc)
      ++ ((λ c, if removed c then None else Some (value c))
            <$> filter changedRun patches).
Proof.
  revert acc. induction patches as [|c cs IH]; intros acc.
  { cbn. by rewrite app_nil_r. }
  change (reduceChanges from (c :: cs) acc)
    with (reduceChanges from cs (reduceChange from acc c)).
  rewrite IH. destruct (decide (changedRun c)) as [Hyes|Hno].
  - rewrite filter_cons_True by done.
    destruct (reduceChange_changed_run from acc c Hyes) as (p & -> & Htext & _).
    rewrite fmap_app, fmap_cons, <-(assoc_L (++)). cbn. by rewrite Htext.
  - rewrite filter_cons_False by done.
    by rewrite reduceChange_unchanged_run.
Qed.

(** X1. Whatever the diff library answers, the patch list holds exactly
    one patch per run that has characters and is added or removed, in the
    order of the runs: a [DELETE] for a removed run, and otherwise an
    [INSERT] whose text is the run's value. *)
Theorem one_patch_per_changed_run `{!DiffLibrary}
    (tr : Transaction) (from to : nat) (replacement : chars) :
  patch_text <$> getReplacementFragmentsFromReplacement tr from to replacement
  = (λ c, if removed c then None else Some (value c))
      <$> filter changedRun (diffChars (textBetween (doc tr) from to) replacement).
Proof.
  unfold getReplacementFragmentsFromReplacement. by rewrite patch_texts_from.
Qed.

Lemma laidOut_step from acc patch :
  laidOut from acc → laidOut from (reduceChange from acc patch).
Proof.
  intros [Hsorted Hall]. pose proof (reduceChange_cursor from acc patch) as Hcur.
  destruct (decide (changedRun patch)) as [Hyes|Hno].
  - destruct (reduceChange_changed_run from acc patch Hyes)
      as (p & Hfr & _ & Hfrom & Hto).
    destruct Hyes as [Hcount _]. unfold laidOut. rewrite Hfr. split.
    + rewrite fmap_app. apply StronglySorted_app_2.
      * intros x1 x2 (q & -> & Hq)%list_elem_of_fmap Hx2.
        apply list_elem_of_singleton in Hx2 as ->.
        rewrite Forall_forall in Hall. destruct (Hall q Hq) as (_ & Hle & _). lia.
      * done.
      * repeat constructor.
    + apply Forall_app. split.
      * eapply Forall_impl; [exact Hall|]. cbn. intros q (? & ? & ?). lia.
      * apply Forall_singleton. lia.
  - unfold laidOut. rewrite reduceChange_unchanged_run by done. split; [done|].
    eapply Forall_impl; [exact Hall|]. cbn. intros q (? & ? & ?). lia.
Qed.

Lemma laidOut_walk from patches acc :
  laidOut from acc → laidOut from (reduceChanges from patches acc).
Proof.
  revert acc. induction patches as [|c cs IH]; intros acc Hacc; [done|].
  apply IH, laidOut_step, Hacc.
Qed.

(** X2. Whatever the diff library answers, the patches come out left to
    right: their [from] positions never decrease along the list, every
    patch starts at or after the [from] the function was given, and every
    patch spans at least one position ([from < to]). *)
Theorem patches_laid_out_left_to_right `{!DiffLibrary}
    (tr : Transaction) (from to : nat) (replacement : chars) :
  let patches := getReplacementFragmentsFromReplacement tr from to replacement in
  StronglySorted le (patch_from <$> patches)
  ∧ Forall (λ p, from ≤ patch_from p ∧ patch_from p < patch_to p) patches.
Proof.
  intros patches. subst patches. unfold getReplacementFragmentsFromReplacement.
  destruct (laidOut_walk from (diffChars (textBetween (doc tr) from to) replacement)
              {| fragments := []; currentPos := 0 |}) as [Hsorted Hall].
  { split; constructor. }
  split; [done|]. eapply Forall_impl; [exact Hall|]. cbn. intros p (? & ? & ?). lia.
Qed.

End PatcherShape.

(** *** Marks under patching *)












(** *** Steps recorded by patching *)

Module ReplaceStepFacts.
Import State ReplaceSteps.





End ReplaceStepFacts.

(** ** Further properties of the Typerighter adapter *)

Module TyperighterMore.
Import Typerighter TyperighterExamples TyperighterFailures.

(** X5. The adapter resolves exactly when the request is answered, the
    answer has status 200 and its body parses; in every other case it
    rejects. *)
Theorem adapter_resolves_exactly_when `{!Fetch} (apiUrl : string)
    (input : IValidationInput) :
  (∃ outputs, createTyperighterAdapter apiUrl input = Resolved outputs)
  ↔ ∃ response data,
      fetch apiUrl (requestFor input) = Resolved response
      ∧ status response = 200
      ∧ json response = Resolved data.
Proof.
  unfold createTyperighterAdapter. fold (requestFor input).
  destruct (fetch apiUrl (requestFor input)) as [response|m]; cbn [await].
  - destruct (decide (status response = 200)) as [Hok|Hnot].
    + rewrite bool_decide_eq_true_2 by done. cbn [negb].
      destruct (json response) as [data|m] eqn:Hjson; cbn [await].
      * split; [intros _; by exists response, data | intros _; by eexists].
      * split; [by intros [? ?] | intros (? & ? & Heq & ? & ?); simplify_eq; congruence].
    + rewrite bool_decide_eq_false_2 by done. cbn [negb].
      split; [by intros [? ?] | intros (? & ? & Heq & ? & ?); simplify_eq; congruence].
  - split; [by intros [? ?] | intros (? & ? & Heq & ? & ?); simplify_eq; congruence].
Qed.

(** X6. Errors below the adapter pass through unchanged: when the request
    itself fails (no answer arrives), the adapter rejects with that error's
    message; and when an answer with status 200 carries a body that does not
    parse, the adapter rejects with the parser's message. *)
Theorem adapter_passes_errors_on `{!Fetch} (apiUrl : string)
    (input : IValidationInput) (message : string) :
  (fetch apiUrl (requestFor input) = Rejected message →
     createTyperighterAdapter apiUrl input = Rejected message)
  ∧ (∀ response,
       fetch apiUrl (requestFor input) = Resolved response →
       status response = 200 →
       json response = Rejected message →
       createTyperighterAdapter apiUrl input = Rejected message).
Proof.
  unfold createTyperighterAdapter. fold (requestFor input). split.
  - by intros ->.
  - intros response -> Hok Hjson. cbn [await].
    rewrite bool_decide_eq_true_2 by done. cbn [negb]. by rewrite Hjson.
Qed.

Lemma adapter_passes_errors_on_witness :
  @createTyperighterAdapter offline "https://typerighter.example/check" weatherInput
    = Rejected "Failed to fetch"
  ∧ @createTyperighterAdapter garbled "https://typerighter.example/check" weatherInput
    = Rejected "Unexpected token < in JSON at position 0".
Proof.
  split.
  - apply (@adapter_passes_errors_on offline "https://typerighter.example/check"
             weatherInput "Failed to fetch"). reflexivity.
  - eapply (proj2 (@adapter_passes_errors_on garbled
                     "https://typerighter.example/check" weatherInput
                     "Unexpected token < in JSON at position 0"));
      reflexivity.
Defined.

(** X7. When the service answers 200 with results whose offsets lie in the
    input's text ([fromPos <= toPos <= str.length]) and the input's range has
    the length of its text, every output lies inside the input's range, is as
    long as the result it comes from, and carries the input's text. *)
Theorem adapter_outputs_inside_input `{!Fetch} (apiUrl : string)
    (input : IValidationInput) (response : Response) (data : ITypeRighterResponse)
    (outputs : list Output) :
  fetch apiUrl (requestFor input) = Resolved response →
  status response = 200 →
  json response = Resolved data →
  to input = from input + length (str input) →
  Forall (λ m, fromPos m ≤ toPos m ∧ toPos m ≤ length (str input)) (results data) →
  createTyperighterAdapter apiUrl input = Resolved outputs →
  Forall2 (λ m o, from input ≤ out_from o ∧ out_from o ≤ out_to o
                  ∧ out_to o ≤ to input
                  ∧ out_to o - out_from o = toPos m - fromPos m
                  ∧ out_str o = str input)
          (results data) outputs.
Proof.
  unfold createTyperighterAdapter. fold (requestFor input).
  intros -> Hok Hjson Hto Hinside. cbn [await].
  rewrite bool_decide_eq_true_2 by done. cbn [negb]. rewrite Hjson. cbn [await].
  intros [= <-]. apply Forall2_fmap_r, Forall_Forall2_diag.
  eapply Forall_impl; [exact Hinside|]. cbn. intros m [Hle Hlen].
  split_and!; [lia|lia|lia|lia|done].
Qed.

Lemma adapter_outputs_inside_input_witness :
  ∃ outputs,
    @createTyperighterAdapter oneMatch "https://typerighter.example/check" weatherInput
      = Resolved outputs
    ∧ Forall2 (λ m o, 10 ≤ out_from o ∧ out_from o ≤ out_to o ∧ out_to o ≤ 21
                      ∧ out_to o - out_from o = toPos m - fromPos m
                      ∧ out_str o = String.list_ascii_of_string "teh weather")
              [tehMatch] outputs.
Proof.
  eexists. split; [reflexivity|].
  eapply (@adapter_outputs_inside_input oneMatch "https://typerighter.example/check"
            weatherInput _ {| results := [tehMatch] |});
    [reflexivity | reflexivity | reflexivity | reflexivity | | reflexivity].
  repeat constructor.
Defined.

End TyperighterMore.

(** ** Further properties of the plugin state *)

Module StateMore.
Import State StateExamples StateSelectors.

(** X8. [selectValidationById] answers with the first current validation
    that has the id, and with nothing exactly when no current validation has
    it. *)
Theorem select_finds_first_with_id (state : PluginState) (id : string) :
  match selectValidationById state id with
  | Some validation =>
      State.id validation = id
      ∧ ∃ before after,
          currentValidations state = before ++ validation :: after
          ∧ Forall (λ other, State.id other ≠ id) before
  | None => Forall (λ other, State.id other ≠ id) (currentValidations state)
  end.
Proof.
  unfold selectValidationById.
  induction (currentValidations state) as [|v vs IH]; cbn; [constructor|].
  case_bool_decide as Hv.
  - split; [done|]. exists [], vs. split; [done|constructor].
  - destruct (List.find _ vs) as [w|].
    + destruct IH as [Hw (before & after & -> & Hbefore)].
      split; [done|]. exists (v :: before), after. split; [done|by constructor].
    + by constructor.
Qed.

Section ReducerMore.
Context `{!PositionMapping, !RangeUtils, !DecorationUtils}.

(** X9. Every field of the state has its writers: no action changes
    [debug] or [trHistory]; only NEW_HOVER_ID changes the hover fields; only
    RequestSuccess changes [currentValidations]; only RequestStart and
    RequestError change [dirtiedRanges]; only RequestPending and RequestStart
    change [validationPending]; only RequestError changes [error]; and
    NEW_HOVER_ID and RequestPending leave the decorations and the in-flight
    descriptor alone. *)
Theorem reducer_field_writers (tr : Transaction) (state : PluginState)
    (action : Action) :
  let state' := validationPluginReducer tr state action in
  debug state' = debug state
  ∧ trHistory state' = trHistory state
  ∧ match action with
    | NEW_HOVER_ID _ _ => True
    | _ => hoverId state' = hoverId state ∧ hoverInfo state' = hoverInfo state
    end
  ∧ match action with
    | VALIDATION_REQUEST_SUCCESS _ => True
    | _ => currentValidations state' = currentValidations state
    end
  ∧ match action with
    | VALIDATION_REQUEST_START | VALIDATION_REQUEST_ERROR _ => True
    | _ => dirtiedRanges state' = dirtiedRanges state
    end
  ∧ match action with
    | VALIDATION_REQUEST_PENDING | VALIDATION_REQUEST_START => True
    | _ => validationPending state' = validationPending state
    end
  ∧ match action with
    | VALIDATION_REQUEST_ERROR _ => True
    | _ => error state' = error state
    end
  ∧ match action with
    | NEW_HOVER_ID _ _ | VALIDATION_REQUEST_PENDING =>
        decorations state' = decorations state
        ∧ validationInFlight state' = validationInFlight state
    | _ => True
    end.
Proof.
  intros state'. subst state'.
  destruct action as [hid hinfo|[response|]| | |validationError]; cbn;
    try (split_and!; reflexivity).
  case_decide; split_and!; reflexivity.
Qed.

(** X10. The reducer never clears a recorded error: after any action the
    [error] field is what it was, or, for a RequestError, the message of that
    error. *)
Theorem reducer_never_clears_error (tr : Transaction) (state : PluginState)
    (action : Action) :
  let state' := validationPluginReducer tr state action in
  error state' = error state
  ∨ ∃ validationError,
      action = VALIDATION_REQUEST_ERROR validationError
      ∧ error state' = Some (message validationError).
Proof.
  intros state'. subst state'.
  destruct action as [hid hinfo|[response|]| | |validationError]; cbn;
    try (by left).
  - case_decide; by left.
  - right. by eexists.
Qed.

(** X11. Hover updates and the validation lifecycle do not interfere: a
    NEW_HOVER_ID action and any action of another kind give the same state in
    either order, and of two NEW_HOVER_ID actions only the later one
    counts. *)
Theorem hover_commutes_with_lifecycle (trHover trOther : Transaction)
    (state : PluginState) (payloadHoverId : option string)
    (payloadHoverInfo : option StateHoverInfo) (action : Action) :
  let hover := NEW_HOVER_ID payloadHoverId payloadHoverInfo in
  match action with
  | NEW_HOVER_ID _ _ =>
      validationPluginReducer trOther
        (validationPluginReducer trHover state hover) action
      = validationPluginReducer trOther state action
  | _ =>
      validationPluginReducer trOther
        (validationPluginReducer trHover state hover) action
      = validationPluginReducer trHover
          (validationPluginReducer trOther state action) hover
  end.
Proof.
  intros hover. subst hover.
  destruct action as [hid hinfo|[response|]| | |validationError]; cbn;
    try reflexivity.
  case_decide; reflexivity.
Qed.

Lemma remove_found (set : DecorationSet) (predicate : DecorationSpec → bool) :
  remove set (find set None None predicate)
  = filter (λ d, ¬ predicate (spec d)) set.
Proof.
  unfold remove, find.
  assert (∀ l, Forall (λ d, d ∈ set) l →
    filter (λ d, d ∉ filter (λ d', touches None None d' ∧ predicate (spec d')) set) l
    = filter (λ d, ¬ predicate (spec d)) l) as Hgen.
  { induction l as [|d l IH]; intros Hsub; [done|].
    apply Forall_cons in Hsub as [Hd Hl].
    destruct (predicate (spec d)) eqn:Hp.
    - rewrite !filter_cons_False; [by apply IH| |].
      + rewrite Hp. intros Hn. by apply Hn.
      + intros Hn. apply Hn, list_elem_of_filter. rewrite Hp. by repeat split.
    - rewrite !filter_cons_True; [by rewrite IH| |].
      + rewrite Hp. by intros [].
      + intros [[_ Hq] _]%list_elem_of_filter. rewrite Hp in Hq. by destruct Hq. }
  apply Hgen, Forall_forall. auto.
Qed.

(** X12. After a RequestError the decorations are the previous ones
    without the in-flight markers, followed by one debug marker
    ([createDebugDecorationFromRange] with its default second argument) for
    each range that is put back among the dirtied ranges. *)
Theorem request_error_swaps_markers (tr : Transaction) (state : PluginState)
    (validationError : ValidationError) :
  let state' :=
    validationPluginReducer tr state (VALIDATION_REQUEST_ERROR validationError) in
  let requeued :=
    mapRangeThroughTransactions
      [validationInputToRange (validationInput validationError)]
      (errorId validationError) (trHistory state) in
  decorations state'
  = filter (λ d, ¬ isInFlight (spec d)) (decorations state)
      ++ ((λ range, createDebugDecorationFromRange range None) <$> requeued).
Proof.
  intros state' requeued. subst state'. cbn.
  unfold add. by rewrite remove_found.
Qed.

End ReducerMore.

End StateMore.

(** ** Properties of the walks over the document tree *)

Module TreeFacts.
Import State Tree.

Lemma PMNode_ind (P : PMNode → Prop) :
  (∀ first rest marks, P (TextNode first rest marks)) →
  (∀ type, P (Atom type)) →
  (∀ type content, Forall P content → P (Branch type content)) →
  ∀ node, P node.
Proof.
  intros Htext Hatom Hbranch.
  fix IH 1. intros [first rest marks|type|type content].
  - apply Htext.
  - apply Hatom.
  - apply Hbranch. induction content as [|child content IHcontent].
    + constructor.
    + constructor; [apply IH | apply IHcontent].
Qed.

Lemma nodeSize_pos (node : PMNode) : 1 + contentSize node ≤ nodeSize node.
Proof. destruct node; cbn; lia. Qed.

Lemma contentSize_zero (node : PMNode) : contentSize node = 0 → children node = [].
Proof.
  destruct node as [| |type [|child content]]; cbn; try done.
  pose proof (nodeSize_pos child). lia.
Qed.

Section Collecting.
Context {A : Type} (emit : Entry → list A) (goOn : PMNode → nat → PMNode → bool).

Local Abbreviation C := (collecting emit goOn).

Lemma visitChildren_collecting_acc parent nodeStart cs :
  Forall (λ child, ∀ st s, nodesBetween child C st s = s ++ nodesBetween child C st []) cs →
  ∀ pos s,
    visitChildren (λ child, nodesBetween child C) C parent nodeStart cs pos s
    = s ++ visitChildren (λ child, nodesBetween child C) C parent nodeStart cs pos [].
Proof.
  induction 1 as [|child rest Hchild _ IH]; intros pos s; cbn.
  { by rewrite app_nil_r. }
  destruct (goOn child (nodeStart + pos) parent && bool_decide (contentSize child ≠ 0)).
  - rewrite (Hchild _ (s ++ _)), (Hchild _ (emit _)).
    rewrite (IH _ ((s ++ _) ++ _)), (IH _ (emit _ ++ _)).
    by rewrite <-!(assoc_L (++)).
  - rewrite (IH _ (s ++ _)), (IH _ (emit _)). by rewrite <-!(assoc_L (++)).
Qed.

Lemma nodesBetween_collecting_acc node :
  ∀ st s, nodesBetween node C st s = s ++ nodesBetween node C st [].
Proof.
  induction node as [first rest marks|type|type content IH] using PMNode_ind;
    intros st s; cbn; try by rewrite app_nil_r.
  by apply visitChildren_collecting_acc.
Qed.

Lemma visitChildren_collecting_cons parent nodeStart child rest pos :
  visitChildren (λ child, nodesBetween child C) C parent nodeStart (child :: rest) pos []
  = emit {| node := child; parent := parent; pos := nodeStart + pos |}
      ++ (if goOn child (nodeStart + pos) parent
          then nodesBetween child C (nodeStart + pos + 1) [] else [])
      ++ visitChildren (λ child, nodesBetween child C) C parent nodeStart rest
           (pos + nodeSize child) [].
Proof.
  cbn. rewrite visitChildren_collecting_acc
    by (apply Forall_forall; intros; apply nodesBetween_collecting_acc).
  destruct (goOn child (nodeStart + pos) parent); cbn [andb].
  - case_bool_decide as Hsize.
    + by rewrite nodesBetween_collecting_acc, <-!(assoc_L (++)).
    + assert (nodesBetween child C (nodeStart + pos + 1) [] = []) as ->.
      { assert (contentSize child = 0) as Hz by lia.
        apply contentSize_zero in Hz. by destruct child; simplify_eq/=. }
      done.
  - done.
Qed.

End Collecting.

Lemma visitChildren_ext {S} (f g : PMNode → nat → PMNode → S → S * bool)
    parent st cs :
  (∀ child pos parent s, f child pos parent s = g child pos parent s) →
  Forall (λ child, ∀ st s, nodesBetween child f st s = nodesBetween child g st s) cs →
  ∀ pos s,
    visitChildren (λ child, nodesBetween child f) f parent st cs pos s
    = visitChildren (λ child, nodesBetween child g) g parent st cs pos s.
Proof.
  intros Hfg. induction 1 as [|child rest Hchild _ IHrest]; intros pos s; cbn; [done|].
  rewrite Hfg. destruct (g child (st + pos) parent s) as [s1 goOn].
  destruct (goOn && bool_decide (contentSize child ≠ 0)); [rewrite Hchild|];
    apply IHrest.
Qed.

Lemma nodesBetween_ext {S} (f g : PMNode → nat → PMNode → S → S * bool) node :
  (∀ child pos parent s, f child pos parent s = g child pos parent s) →
  ∀ st s, nodesBetween node f st s = nodesBetween node g st s.
Proof.
  intros Hfg.
  induction node as [first rest marks|type|type content IH] using PMNode_ind;
    intros st s; cbn; try done.
  by apply visitChildren_ext.
Qed.

Section Visits.
Context (goOn : PMNode → nat → PMNode → bool).

Lemma visits_branch type content st :
  visits (Branch type content) goOn st
  = visitsAmong goOn (Branch type content) st content 0.
Proof. done. Qed.

Lemma visits_no_children node st : children node = [] → visits node goOn st = [].
Proof. by destruct node; intros; simplify_eq/=. Qed.

Lemma visitsAmong_cons parent st child rest pos :
  visitsAmong goOn parent st (child :: rest) pos
  = {| node := child; parent := parent; pos := st + pos |}
      :: (if goOn child (st + pos) parent then visits child goOn (st + pos + 1) else [])
      ++ visitsAmong goOn parent st rest (pos + nodeSize child).
Proof. unfold visitsAmong. by rewrite visitChildren_collecting_cons. Qed.

Lemma visitChildren_collecting_visits {A} (emit : Entry → list A) parent st cs :
  Forall (λ child, ∀ st, nodesBetween child (collecting emit goOn) st []
                         = visits child goOn st ≫= emit) cs →
  ∀ pos,
    visitChildren (λ child, nodesBetween child (collecting emit goOn))
      (collecting emit goOn) parent st cs pos []
    = visitsAmong goOn parent st cs pos ≫= emit.
Proof.
  induction 1 as [|child rest Hchild _ IHrest]; intros pos; [done|].
  rewrite visitChildren_collecting_cons, visitsAmong_cons.
  rewrite bind_cons, bind_app, IHrest.
  destruct (goOn child (st + pos) parent); by rewrite ?Hchild.
Qed.

Lemma nodesBetween_collecting_visits {A} (emit : Entry → list A) node :
  ∀ st, nodesBetween node (collecting emit goOn) st [] = visits node goOn st ≫= emit.
Proof.
  induction node as [first rest marks|type|type content IH] using PMNode_ind;
    intros st; try done.
  rewrite visits_branch. by apply visitChildren_collecting_visits.
Qed.

End Visits.

Section VisitFacts.
Context (goOn : PMNode → nat → PMNode → bool).

Lemma visitsAmong_within par st cs :
  Forall (λ child, ∀ st', Forall (visitWithin st' (contentSize child))
                            (visits child goOn st')) cs →
  (∀ c, c ∈ cs → c ∈ children par) →
  ∀ off, Forall (visitWithin (st + off) (sum_list (nodeSize <$> cs)))
           (visitsAmong goOn par st cs off).
Proof.
  induction 1 as [|child rest Hchild _ IHrest]; intros Hin off.
  { constructor. }
  rewrite visitsAmong_cons. pose proof (nodeSize_pos child) as Hsize.
  change (sum_list (nodeSize <$> child :: rest))
    with (nodeSize child + sum_list (nodeSize <$> rest)).
  constructor; [|apply Forall_app; split].
  - unfold visitWithin. split_and!; cbn; [lia|lia|]. apply Hin. left.
  - destruct (goOn child (st + off) par); [|constructor].
    eapply Forall_impl; [apply Hchild|]. intros e (? & ? & ?).
    unfold visitWithin. split_and!; [lia|lia|done].
  - eapply Forall_impl; [apply IHrest|].
    + intros c Hc. apply Hin. by right.
    + intros e (? & ? & ?). unfold visitWithin. split_and!; [lia|lia|done].
Qed.

Lemma visits_within n :
  ∀ st, Forall (visitWithin st (contentSize n)) (visits n goOn st).
Proof.
  induction n as [first rest marks|type|type content IH] using PMNode_ind;
    intros st; try constructor.
  rewrite visits_branch.
  pose proof (visitsAmong_within (Branch type content) st content IH) as Hall.
  specialize (Hall (λ c Hc, Hc) 0). by rewrite Nat.add_0_r in Hall.
Qed.

Lemma visitsAmong_sorted par st cs :
  Forall (λ child, ∀ st', StronglySorted (comesBefore goOn) (visits child goOn st')) cs →
  (∀ c, c ∈ cs → c ∈ children par) →
  ∀ off, StronglySorted (comesBefore goOn) (visitsAmong goOn par st cs off).
Proof.
  induction 1 as [|child rest Hchild Hrest IHrest]; intros Hin off.
  { constructor. }
  rewrite visitsAmong_cons. pose proof (nodeSize_pos child) as Hsize.
  assert (Forall (visitWithin (st + (off + nodeSize child))
                    (sum_list (nodeSize <$> rest)))
            (visitsAmong goOn par st rest (off + nodeSize child))) as Hlater.
  { apply visitsAmong_within.
    - apply Forall_forall. intros c _ st'. apply visits_within.
    - intros c Hc. apply Hin. by right. }
  pose proof (visits_within child (st + off + 1)) as Hinner.
  rewrite Forall_forall in Hlater, Hinner.
  apply StronglySorted_cons. split.
  - apply Forall_app. split.
    + destruct (goOn child (st + off) par) eqn:Hgo; [|constructor].
      apply Forall_forall. intros e He. destruct (Hinner e He) as (? & ? & ?).
      split; cbn; [lia|]. right. by rewrite Hgo.
    + apply Forall_forall. intros e He. destruct (Hlater e He) as (? & ? & ?).
      split; cbn; [lia|]. left. lia.
  - apply StronglySorted_app_2.
    + intros e1 e2 He1 He2.
      destruct (goOn child (st + off) par); [|by apply elem_of_nil in He1].
      destruct (Hinner e1 He1) as (? & ? & ?).
      destruct (Hlater e2 He2) as (? & ? & ?).
      pose proof (nodeSize_pos (node e1)).
      split; [lia|]. left. lia.
    + destruct (goOn child (st + off) par); [apply Hchild|constructor].
    + apply IHrest. intros c Hc. apply Hin. by right.
Qed.

Lemma visits_sorted n :
  ∀ st, StronglySorted (comesBefore goOn) (visits n goOn st).
Proof.
  induction n as [first rest marks|type|type content IH] using PMNode_ind;
    intros st; try constructor.
  rewrite visits_branch. by apply visitsAmong_sorted.
Qed.

(** Children the walk is kept out of are visited one after the other. *)
Lemma visitsAmong_kept_out par st cs :
  (∀ c off, c ∈ cs → goOn c off par = false) →
  ∀ off,
    visitsAmong goOn par st cs off
    = zip_with (λ c o, {| node := c; parent := par; pos := st + o |})
        cs (offsetsFrom off cs).
Proof.
  induction cs as [|child rest IH]; intros Hout off; [done|].
  rewrite visitsAmong_cons, Hout by left. cbn. f_equal.
  apply IH. intros c o Hc. apply Hout. by right.
Qed.

End VisitFacts.

Lemma visitsAmong_count par st cs :
  Forall (λ child, ∀ st', length (visits child (λ _ _ _, true) st')
                          = descendantCount child) cs →
  ∀ off,
    length (visitsAmong (λ _ _ _, true) par st cs off)
    = sum_list ((λ child, 1 + descendantCount child) <$> cs).
Proof.
  induction 1 as [|child rest Hchild _ IHrest]; intros off; [done|].
  rewrite visitsAmong_cons. cbn. rewrite length_app, Hchild, IHrest. done.
Qed.

Lemma visits_count n :
  ∀ st, length (visits n (λ _ _ _, true) st) = descendantCount n.
Proof.
  induction n as [first rest marks|type|type content IH] using PMNode_ind;
    intros st; try done.
  rewrite visits_branch. by apply visitsAmong_count.
Qed.

Lemma StronglySorted_fmap_impl {A B} (R : relation A) (R' : relation B)
    (f : A → B) (l : list A) :
  (∀ x y, R x y → R' (f x) (f y)) →
  StronglySorted R l → StronglySorted R' (f <$> l).
Proof.
  intros Himpl. induction 1 as [|x l _ IH Hx]; cbn; constructor; [done|].
  apply Forall_fmap. eapply Forall_impl; [exact Hx|]. intros y. apply Himpl.
Qed.

Lemma StronglySorted_bind {A B} (R : relation A) (R' : relation B)
    (f : A → list B) (l : list A) :
  (∀ x y a b, R x y → a ∈ f x → b ∈ f y → R' a b) →
  (∀ x, StronglySorted R' (f x)) →
  StronglySorted R l → StronglySorted R' (l ≫= f).
Proof.
  intros Hcross Heach. induction 1 as [|x l _ IH Hx]; [constructor|].
  rewrite bind_cons. apply StronglySorted_app_2; [|done|done].
  intros a b Ha (y & Hb & Hy)%list_elem_of_bind.
  rewrite Forall_forall in Hx. eauto.
Qed.

Lemma fmap_bind_out {A B C} (g : B → C) (f : A → list B) (l : list A) :
  g <$> (l ≫= f) = l ≫= λ x, g <$> f x.
Proof. induction l as [|x l IH]; [done|]. by rewrite !bind_cons, fmap_app, IH. Qed.

Lemma flatten_visits n descend :
  flatten n descend = visits n (λ _ _ _, default true descend) 0.
Proof. done. Qed.

(** X13. [flatten], with its default of descending, lists every node
    below the given node exactly once and in document order: the positions
    strictly increase, every node listed ends within the content of the given
    node, each is listed with a parent that has it as a child, and there are
    as many entries as there are nodes below. *)
Theorem flatten_lists_in_document_order (n : PMNode) :
  let entries := flatten n None in
  StronglySorted lt (pos <$> entries)
  ∧ Forall (λ e, pos e + nodeSize (node e) ≤ contentSize n
                 ∧ node e ∈ children (parent e)) entries
  ∧ length entries = descendantCount n.
Proof.
  intros entries. subst entries. rewrite flatten_visits. cbn [default]. split_and!.
  - eapply StronglySorted_fmap_impl; [|apply visits_sorted]. by intros e1 e2 [? _].
  - eapply Forall_impl; [apply visits_within|]. by intros e (? & ? & ?).
  - apply visits_count.
Qed.

Lemma flatten_children (n : PMNode) :
  flatten n (Some false)
  = zip_with (λ c o, {| node := c; parent := n; pos := o |})
      (children n) (offsetsFrom 0 (children n)).
Proof.
  rewrite flatten_visits. cbn [default].
  destruct n as [first rest marks|type|type content]; try done.
  rewrite visits_branch. by rewrite visitsAmong_kept_out.
Qed.

(** X14. [flatten] told not to descend lists exactly the children of the
    node, in order, each with the node as its parent and, as its position,
    the size of the content before it. *)
Theorem flatten_without_descent (n : PMNode) :
  flatten n (Some false)
  = zip_with (λ c o, {| node := c; parent := n; pos := o |})
      (children n) (offsetsFrom 0 (children n)).
Proof. apply flatten_children. Qed.

Lemma filter_zipped_children (predicate : PMNode → bool) par cs :
  ∀ off,
    node <$> filter (λ e, predicate (node e))
               (zip_with (λ c o, {| node := c; parent := par; pos := o |})
                  cs (offsetsFrom off cs))
    = filter (λ c, predicate c) cs.
Proof.
  induction cs as [|c cs IH]; intros off; [done|]. cbn [offsetsFrom zip_with].
  destruct (predicate c) eqn:Hc.
  - rewrite !filter_cons_True by (cbn; by rewrite Hc). cbn. by rewrite IH.
  - rewrite !filter_cons_False by (cbn; rewrite Hc; by intros []). apply IH.
Qed.

Lemma findChildren_children (n : PMNode) (predicate : PMNode → bool) :
  node <$> findChildren n predicate false = filter (λ c, predicate c) (children n).
Proof.
  unfold findChildren. rewrite flatten_children.
  apply filter_zipped_children.
Qed.

(** X15. [findChildren] told not to descend finds exactly the children of
    the node that satisfy the predicate, in order. *)
Theorem findChildren_without_descent (n : PMNode) (predicate : PMNode → bool) :
  node <$> findChildren n predicate false = filter (λ c, predicate c) (children n).
Proof. apply findChildren_children. Qed.

Lemma withoutBlockChild_children (c : PMNode) :
  Forall (λ g, nodeIsBlock g = false) (children c) → withoutBlockChild c = true.
Proof.
  intros Hnone. unfold withoutBlockChild. apply bool_decide_eq_true_2.
  rewrite <-(length_fmap node), findChildren_children.
  assert (filter (λ g, nodeIsBlock g) (children c) = []) as ->; [|done].
  induction Hnone as [|g gs Hg _ IH]; [done|].
  rewrite filter_cons_False by (rewrite Hg; by intros []). done.
Qed.

Section Blocks.
Context `{!BlockFactory}.

Lemma getBlocksFromDocument_visits (doc : PMNode) (time : option nat) :
  getBlocksFromDocument doc time
  = visits doc (λ c _ _, negb (withoutBlockChild c)) 0
      ≫= λ e, if withoutBlockChild (node e)
              then [createBlock doc (rangeInside (node e) (pos e)) (default 0 time)]
              else [].
Proof.
  unfold getBlocksFromDocument, descendants.
  rewrite <-nodesBetween_collecting_visits.
  apply nodesBetween_ext. intros child off par s. unfold collecting. cbn.
  fold (withoutBlockChild child).
  destruct (withoutBlockChild child); cbn; [done|by rewrite app_nil_r].
Qed.

End Blocks.

(** X16. [getBlocksFromDocument] hands [createBlock] the document, a range
    and the time (0 when none is given), once per range; and the ranges it
    makes, in the order it makes them, lie one after the other without
    touching (each ends before the next begins), each with
    [1 <= from <= to] and ending within the document's content. *)
Theorem blocks_are_disjoint_and_ordered `{!BlockFactory} (doc : PMNode)
    (time : option nat) :
  let ranges : list Range := @getBlocksFromDocument rangeOfBlock doc None in
  getBlocksFromDocument doc time
    = (λ range, createBlock doc range (default 0 time)) <$> ranges
  ∧ StronglySorted (λ r1 r2, to r1 < from r2) ranges
  ∧ Forall (λ r, 1 ≤ from r ∧ from r ≤ to r ∧ to r ≤ contentSize doc) ranges.
Proof.
  intros ranges. subst ranges. rewrite !getBlocksFromDocument_visits. split_and!.
  - rewrite fmap_bind_out. apply list_bind_ext; [|done].
    intros e. by destruct (withoutBlockChild (node e)).
  - eapply StronglySorted_bind; [| |apply visits_sorted].
    + intros e1 e2 r1 r2 [Hlt Hend] Hr1 Hr2. cbn in Hr1, Hr2.
      destruct (withoutBlockChild (node e1)) eqn:H1; [|by apply elem_of_nil in Hr1].
      destruct (withoutBlockChild (node e2)); [|by apply elem_of_nil in Hr2].
      apply list_elem_of_singleton in Hr1 as ->.
      apply list_elem_of_singleton in Hr2 as ->.
      cbn. destruct Hend as [Hend|Hgo]; [lia|by destruct Hgo].
    + intros e. cbn. destruct (withoutBlockChild (node e)); repeat constructor.
  - apply Forall_bind. eapply Forall_impl; [apply visits_within|].
    intros e (Hst & Hend & _). cbn.
    destruct (withoutBlockChild (node e)); [|constructor].
    apply Forall_singleton. cbn. pose proof (nodeSize_pos (node e)). lia.
Qed.

Lemma blocks_of_kept_out_children par cs :
  Forall (λ c, withoutBlockChild c = true) cs →
  ∀ off,
    (zip_with (λ c o, {| node := c; parent := par; pos := 0 + o |})
       cs (offsetsFrom off cs)
     ≫= λ e, if withoutBlockChild (node e)
             then [rangeInside (node e) (pos e)] else [])
    = zip_with rangeInside cs (offsetsFrom off cs).
Proof.
  induction 1 as [|c cs Hc _ IH]; intros off; [done|].
  cbn [offsetsFrom zip_with]. rewrite bind_cons. cbn. rewrite Hc. cbn.
  by rewrite IH.
Qed.

(** X17. For a document whose children have no block children (a sequence
    of text blocks, as paragraphs are), [getBlocksFromDocument] makes one
    range per child, in order: from the position after the child's opening to
    the position after its closing. *)
Theorem blocks_of_text_blocks (doc : PMNode) :
  Forall (λ c, Forall (λ g, nodeIsBlock g = false) (children c)) (children doc) →
  @getBlocksFromDocument rangeOfBlock doc None
  = zip_with rangeInside (children doc) (offsetsFrom 0 (children doc)).
Proof.
  intros Hflat. rewrite getBlocksFromDocument_visits.
  assert (Forall (λ c, withoutBlockChild c = true) (children doc)) as Hout.
  { eapply Forall_impl; [exact Hflat|]. apply withoutBlockChild_children. }
  destruct doc as [first rest marks|type|type content]; try done.
  rewrite visits_branch, visitsAmong_kept_out.
  - by apply blocks_of_kept_out_children.
  - intros c off Hc. cbn in Hout. rewrite Forall_forall in Hout.
    by rewrite Hout.
Qed.

Lemma blocks_of_text_blocks_witness :
  @getBlocksFromDocument rangeOfBlock twoParagraphs None
  = [{| from := 1; to := 5 |}; {| from := 6; to := 14 |}].
Proof.
  apply (blocks_of_text_blocks twoParagraphs). repeat constructor.
Defined.

End TreeFacts.
